(** * elastic_chain/simulation.py: the chain of rings

    A shallow embedding of the physics core of [simulation.py]: the ring
    classes ([RingInterface], [PassiveRing], [ActiveRing]) and the
    [Simulator] ([__init__], [update], [collide]).

    Numbers.  The program computes with Python numbers (ints such as
    [g = -1] and the initial [vy = 0], floats such as [r = 0.1]).  They are
    modelled as exact rationals [Q]; the literal [0.1] is the rational
    [1/10].  Rounding is therefore outside the model, and equalities between
    computed numbers are stated with [==] ([Qeq]).

    Objects.  Every ring is an object of its own, held in exactly one slot of
    the list [self.rings]; a mutation of [self.rings[i]] is modelled as the
    replacement of slot [i] of a list of ring records.  The matplotlib side of
    a ring (its [center], colour, the [axis] it is added to) is not part of
    the model. *)

From Stdlib Require Import QArith Qabs Lqa Lia ZArith.
From stdpp Require Import base option list.

Local Open Scope Q_scope.

(** ** Rings *)

(** [g = -1   # free fall acceleration] *)
Definition g : Q := -1.

(** The two concrete subclasses of [RingInterface]; an [ActiveRing] carries
    [self.a]. *)
Inductive Role : Type :=
| Passive : Role
| Active (a : Q) : Role.

(** The attributes set by [RingInterface.__init__]. *)
Record Ring : Type := mkRing {
  y : Q;
  vy : Q;
  r : Q;
  role : Role
}.

(** [PassiveRing(y, r=r)]: [self.y = y; self.vy = 0; self.r = r]. *)
Definition PassiveRing (y0 r0 : Q) : Ring :=
  {| y := y0; vy := 0; r := r0; role := Passive |}.

(** [ActiveRing(y, self_acceleration=F, r=r)]. *)
Definition ActiveRing (y0 self_acceleration r0 : Q) : Ring :=
  {| y := y0; vy := 0; r := r0; role := Active self_acceleration |}.

(** [_move]: the first assignment reads the old [vy], the second one
    updates it. *)
Definition _move (ring : Ring) (dt : Q) : Ring :=
  match role ring with
  | Passive =>
      let y1 := y ring + (vy ring * dt + g * dt ^ 2 / 2) in
      let vy1 := vy ring + g * dt in
      {| y := y1; vy := vy1; r := r ring; role := role ring |}
  | Active a =>
      let y1 := y ring + (vy ring * dt + (g + a) * dt ^ 2 / 2) in
      let vy1 := vy ring + (g + a) * dt in
      {| y := y1; vy := vy1; r := r ring; role := role ring |}
  end.

(** [RingInterface.move]. *)
Definition move (ring : Ring) (dt : Q) : Ring :=
  let ring1 := _move ring dt in
  if Qle_bool (y ring1 - r ring1) 0
  then {| y := r ring1; vy := 0; r := r ring1; role := role ring1 |}
  else ring1.

(** ** The simulator *)

(** The attributes of a [Simulator].  The index pairs hold the non-negative
    ints produced by [range]. *)
Record Simulator : Type := mkSimulator {
  rings : list Ring;
  pairs : list (nat * nat);
  dt : Q
}.

(** Python's [range(n)] for an int [n]: empty when [n <= 0]. *)
Definition range (n : Z) : list nat := seq 0 (Z.to_nat n).

(** [Simulator.__init__(N, F, axis, dt)]: the [for] loop appends one
    [PassiveRing] per element of [range(N-1)], then the [ActiveRing] is
    appended. *)
Definition Simulator_init (N : Z) (F : Q) (dt0 : Q) : Simulator :=
  let r0 : Q := 1 # 10 in
  let rings0 :=
    foldl (fun acc (_ : nat) => acc ++ [PassiveRing r0 r0]) [] (range (N - 1)) in
  let rings1 := rings0 ++ [ActiveRing r0 F r0] in
  {| rings := rings1;
     pairs := (fun i => (i, i + 1)%nat) <$> reverse (range (N - 1));
     dt := dt0 |}.

(** The call [Simulator(N, F, axis, dt)] as an outcome: [None] stands for a
    raised exception.  The body of [__init__] has no [raise], no [assert] and
    no branch on its arguments, so the call always returns the object. *)
Definition Simulator_call (N : Z) (F : Q) (dt0 : Q) : option Simulator :=
  Some (Simulator_init N F dt0).

(** [a < b] on rationals, as a boolean. *)
Definition Qlt_bool (a b : Q) : bool := negb (Qle_bool b a).

Definition set_vy (ring : Ring) (v : Q) : Ring :=
  {| y := y ring; vy := v; r := r ring; role := role ring |}.

Definition set_y (ring : Ring) (y1 : Q) : Ring :=
  {| y := y1; vy := vy ring; r := r ring; role := role ring |}.

(** [Simulator.collide(ring1, ring2)] on two distinct ring objects.  The
    result is the final state of the object passed as [ring1] and of the one
    passed as [ring2], in that order; the swap of the local names only
    decides which of the two is treated as the lower one. *)
Definition collide (ring1 ring2 : Ring) : Ring * Ring :=
  let v := (vy ring1 + vy ring2) / 2 in
  let ring1 := set_vy ring1 v in
  let ring2 := set_vy ring2 v in
  if Qlt_bool (y ring2) (y ring1)
  then
    let y_av := (y ring2 + r ring2 + y ring1 - r ring1) / 2 in
    (set_y ring1 (y_av + r ring1), set_y ring2 (y_av - r ring2))
  else
    let y_av := (y ring1 + r ring1 + y ring2 - r ring2) / 2 in
    (set_y ring1 (y_av - r ring1), set_y ring2 (y_av + r ring2)).

(** The body of the second loop of [update] for one pair [(i, j)].
    [self.rings[i]] raises [IndexError] out of range: [None].  The two
    mutated objects are stored back in their slots. *)
Definition update_pair (rs : list Ring) (p : nat * nat) : option (list Ring) :=
  let '(i, j) := p in
  ring1 ← rs !! i;
  ring2 ← rs !! j;
  if Qle_bool (Qabs (y ring1 - y ring2)) (r ring1 + r ring2)
  then Some rs
  else
    let '(ring1', ring2') := collide ring1 ring2 in
    Some (<[j := ring2']> (<[i := ring1']> rs)).

(** [for i, j in self.pairs: ...], each pair seeing the rings as the pairs
    before it left them. *)
Fixpoint update_pairs (ps : list (nat * nat)) (rs : list Ring)
  : option (list Ring) :=
  match ps with
  | [] => Some rs
  | p :: ps' => rs' ← update_pair rs p; update_pairs ps' rs'
  end.

(** [for ring in self.rings: ring.move(self.dt)]. *)
Definition update_moves (s : Simulator) : list Ring :=
  (fun ring => move ring (dt s)) <$> rings s.

(** [Simulator.update(frame)]; the frame number is not used. *)
Definition update (s : Simulator) : option Simulator :=
  rs' ← update_pairs (pairs s) (update_moves s);
  Some {| rings := rs'; pairs := pairs s; dt := dt s |}.

(** [n] successive calls of [update]. *)
Fixpoint ticks (n : nat) (s : Simulator) : option Simulator :=
  match n with
  | O => Some s
  | S k => s' ← update s; ticks k s'
  end.

(** Every index in [ps] is an index of [rs]: no [IndexError] in [update]. *)
Definition pairs_in_range (ps : list (nat * nat)) (rs : list Ring) : Prop :=
  Forall (fun p => (p.1 < length rs)%nat ∧ (p.2 < length rs)%nat) ps.

(** The rings at the two indices of every pair of [ps] are related by [P]. *)
Definition every_pair (P : Ring → Ring → Prop)
    (ps : list (nat * nat)) (rs : list Ring) : Prop :=
  Forall (fun p => ∀ a b, rs !! p.1 = Some a → rs !! p.2 = Some b → P a b) ps.

(** The rings [rs] after [collide a b] has mutated the objects in slots [i]
    and [j]. *)
Definition collide_at (rs : list Ring) (i j : nat) (a b : Ring) : list Ring :=
  <[j := (collide a b).2]> (<[i := (collide a b).1]> rs).

(** ** Quantities of a chain *)

(** The attributes of a ring that no method assigns after construction. *)
Definition shape (rs : list Ring) : list (Q * Role) :=
  (fun ring => (r ring, role ring)) <$> rs.

(** The sum of an attribute over the rings of a chain. *)
Definition total (f : Ring → Q) (rs : list Ring) : Q :=
  foldr (fun ring acc => f ring + acc) 0 rs.

(** The lower edge of the ring is not below the floor. *)
Definition on_or_above_floor (ring : Ring) : Prop := 0 <= y ring - r ring.

(** A magnitude at which the squares, products and sums that the code forms
    over a run stay far inside the range of a Python float. *)
Definition moderate (x : Q) : Prop := Qabs x <= 1000000.

(** ** Equality of rings up to equality of rationals *)

(** Two rings with the same role and equal numbers. *)
Definition Role_eq (k1 k2 : Role) : Prop :=
  match k1, k2 with
  | Passive, Passive => True
  | Active a1, Active a2 => a1 == a2
  | _, _ => False
  end.

Definition Ring_eq (a b : Ring) : Prop :=
  y a == y b /\ vy a == vy b /\ r a == r b /\ Role_eq (role a) (role b).

Definition Role_eqb (k1 k2 : Role) : bool :=
  match k1, k2 with
  | Passive, Passive => true
  | Active a1, Active a2 => Qeq_bool a1 a2
  | _, _ => false
  end.

Definition Ring_eqb (a b : Ring) : bool :=
  Qeq_bool (y a) (y b) && Qeq_bool (vy a) (vy b) && Qeq_bool (r a) (r b)
  && Role_eqb (role a) (role b).

Definition Rings_eq : list Ring → list Ring → Prop := Forall2 Ring_eq.

(** ** The words of the specification *)

(** "overlap": [|yA - yB| <= rA + rB]. *)
Definition overlapping (a b : Ring) : Prop :=
  Qabs (y a - y b) <= r a + r b.

(** "no overlap": [|yA - yB| > rA + rB]. *)
Definition apart (a b : Ring) : Prop :=
  r a + r b < Qabs (y a - y b).

(** The tick rule for the adjacent pair [(i, i+1)] as the specification
    words it: skip when apart, resolve when overlapping. *)
Definition spec_pair_rule (rs : list Ring) (i : nat) : Prop :=
  ∀ a b, rs !! i = Some a → rs !! S i = Some b →
    (apart a b →
     ∃ rs', update_pair rs (i, S i) = Some rs' ∧ Rings_eq rs' rs) ∧
    (overlapping a b →
     ∃ rs', update_pair rs (i, S i) = Some rs' ∧
            Rings_eq rs' (collide_at rs i (S i) a b)).

(** "No-collision idempotence" as the specification words it: when every
    pair is apart after the moves, the second loop changes nothing. *)
Definition spec_no_overlap_noop (s : Simulator) : Prop :=
  every_pair apart (pairs s) (update_moves s) →
  ∃ rs', update_pairs (pairs s) (update_moves s) = Some rs' ∧
         Rings_eq rs' (update_moves s).

(** The "transient violation of the floor invariant" as the specification
    words it: in a tick, the resolution of some overlapping adjacent pair,
    both rings on or above the floor as the moves leave them, leaves one of
    the two with [y - r < 0]. *)
Definition spec_transient_violation : Prop :=
  ∃ (rs rs' : list Ring) (i : nat) (a b a' b' : Ring),
    rs !! i = Some a ∧ rs !! S i = Some b ∧
    on_or_above_floor a ∧ on_or_above_floor b ∧
    overlapping a b ∧
    update_pair rs (i, S i) = Some rs' ∧
    rs' !! i = Some a' ∧ rs' !! S i = Some b' ∧
    (y a' - r a' < 0 ∨ y b' - r b' < 0).

(** The pairs [(i, i+1)] for [i = n-1, n-2, ..., 0], counting down. *)
Fixpoint spec_pairs (n : nat) : list (nat * nat) :=
  match n with
  | O => []
  | S k => (k, S k) :: spec_pairs k
  end.

(** The construction inputs the specification calls in range. *)
Definition spec_in_range (N : Z) (dt0 : Q) : Prop :=
  (1 <= N)%Z ∧ 0 < dt0.

(** "Fail fast": out-of-range inputs are rejected by the constructor. *)
Definition spec_fail_fast (N : Z) (F dt0 : Q) : Prop :=
  ¬ spec_in_range N dt0 → Simulator_call N F dt0 = None.

(** ** Theorems *)

Lemma _move_r ring dt : r (_move ring dt) = r ring.
Proof. unfold _move. destruct (role ring); reflexivity. Qed.

Lemma _move_role ring dt : role (_move ring dt) = role ring.
Proof. unfold _move. destruct (role ring); reflexivity. Qed.

Lemma move_r ring dt : r (move ring dt) = r ring.
Proof.
  unfold move. destruct (Qle_bool _ _); simpl; apply _move_r.
Qed.

Lemma move_role ring dt : role (move ring dt) = role ring.
Proof.
  unfold move. destruct (Qle_bool _ _); simpl; apply _move_role.
Qed.

(** The floor clamp of [move], for any time step. *)
Lemma move_clamp ring dt :
  0 <= y (move ring dt) - r (move ring dt) /\
  (y (_move ring dt) - r (_move ring dt) <= 0 ->
   y (move ring dt) = r ring /\ vy (move ring dt) = 0) /\
  (~ y (_move ring dt) - r (_move ring dt) <= 0 ->
   move ring dt = _move ring dt).
Proof.
  unfold move.
  destruct (Qle_bool (y (_move ring dt) - r (_move ring dt)) 0) eqn:E.
  - apply Qle_bool_iff in E. simpl. repeat split.
    + lra.
    + apply _move_r.
    + intros H. contradiction.
  - assert (~ y (_move ring dt) - r (_move ring dt) <= 0) as N.
    { intros H. apply Qle_bool_iff in H. congruence. }
    repeat split; try contradiction. lra.
Qed.

(** C3.  For every ring and every [dt > 0], after [move(dt)] the invariant
    [y - r >= 0] holds: when the variant's motion update leaves
    [y - r <= 0], [y] is set to exactly [r] and [vy] to [0]; otherwise the
    ring is left as the motion update computed it. *)
Theorem move_floor_invariant (ring : Ring) (dt0 : Q) :
  0 < dt0 →
  0 <= y (move ring dt0) - r (move ring dt0) ∧
  (y (_move ring dt0) - r (_move ring dt0) <= 0 →
   y (move ring dt0) = r ring ∧ vy (move ring dt0) = 0) ∧
  (¬ y (_move ring dt0) - r (_move ring dt0) <= 0 →
   move ring dt0 = _move ring dt0).
Proof. intros _. apply move_clamp. Qed.

Lemma move_floor_invariant_witness :
  let ring := PassiveRing (1 # 10) (1 # 10) in
  0 <= y (move ring (1 # 100)) - r (move ring (1 # 100)) ∧
  (y (_move ring (1 # 100)) - r (_move ring (1 # 100)) <= 0 →
   y (move ring (1 # 100)) = r ring ∧ vy (move ring (1 # 100)) = 0) ∧
  (¬ y (_move ring (1 # 100)) - r (_move ring (1 # 100)) <= 0 →
   move ring (1 # 100) = _move ring (1 # 100)).
Proof.
  apply (move_floor_invariant (PassiveRing (1 # 10) (1 # 10)) (1 # 100)).
  reflexivity.
Defined.

(** C8.  The motion update of each variant, with [g = -1] shared by all
    rings: a Passive ring does [y += vy*dt + g*dt^2/2] and then
    [vy += g*dt]; an Active ring with self-acceleration [a] does
    [y += vy*dt + (g+a)*dt^2/2] and then [vy += (g+a)*dt].  Both read the
    old [vy] in the position update and leave [r] and the variant alone. *)
Theorem _move_euler (ring : Ring) (dt0 : Q) :
  g == -1 ∧
  (role ring = Passive →
   y (_move ring dt0) == y ring + vy ring * dt0 + g * (dt0 * dt0) / 2 ∧
   vy (_move ring dt0) == vy ring + g * dt0) ∧
  (∀ a, role ring = Active a →
   y (_move ring dt0) == y ring + vy ring * dt0 + (g + a) * (dt0 * dt0) / 2 ∧
   vy (_move ring dt0) == vy ring + (g + a) * dt0) ∧
  r (_move ring dt0) = r ring ∧ role (_move ring dt0) = role ring.
Proof.
  split; [reflexivity |].
  split; [| split; [| split; [apply _move_r | apply _move_role]]].
  - intros E. unfold _move. rewrite E. simpl. split; [| reflexivity].
    unfold g. field.
  - intros a E. unfold _move. rewrite E. simpl. split; [| reflexivity].
    unfold g. field.
Qed.

(** *** The collision resolver *)

Lemma Qlt_bool_iff (a b : Q) : Qlt_bool a b = true ↔ a < b.
Proof.
  unfold Qlt_bool. rewrite negb_true_iff. split.
  - intros E. apply Qnot_le_lt. intros H. apply Qle_bool_iff in H. congruence.
  - intros H. destruct (Qle_bool b a) eqn:E; [| reflexivity].
    apply Qle_bool_iff in E. lra.
Qed.

Lemma Qlt_bool_false (a b : Q) : Qlt_bool a b = false ↔ b <= a.
Proof.
  unfold Qlt_bool. rewrite negb_false_iff. apply Qle_bool_iff.
Qed.

Lemma collide_vy (A B : Ring) :
  vy (collide A B).1 = (vy A + vy B) / 2 ∧
  vy (collide A B).2 = (vy A + vy B) / 2.
Proof.
  unfold collide. cbn. destruct (Qlt_bool (y B) (y A)); split; reflexivity.
Qed.

Lemma collide_r_role (A B : Ring) :
  r (collide A B).1 = r A ∧ r (collide A B).2 = r B ∧
  role (collide A B).1 = role A ∧ role (collide A B).2 = role B.
Proof.
  unfold collide. cbn.
  destruct (Qlt_bool (y B) (y A)); repeat split; reflexivity.
Qed.

(** The positions after [collide], by which ring was the lower one. *)
Lemma collide_y (A B : Ring) :
  (y B < y A →
   y (collide A B).1 == (y B + r B + y A - r A) / 2 + r A ∧
   y (collide A B).2 == (y B + r B + y A - r A) / 2 - r B) ∧
  (y A <= y B →
   y (collide A B).1 == (y A + r A + y B - r B) / 2 - r A ∧
   y (collide A B).2 == (y A + r A + y B - r B) / 2 + r B).
Proof.
  unfold collide. cbn. split; intros H.
  - apply Qlt_bool_iff in H. rewrite H. cbn. split; reflexivity.
  - apply Qlt_bool_false in H. rewrite H. cbn. split; reflexivity.
Qed.

(** C4.  For two rings with [|yA - yB| <= rA + rB], after [collide] both
    velocities are the average [(vA + vB)/2] of the velocities before, and
    the rings are tangent: the higher centre minus the lower centre is
    [rA + rB].  The ring that was the lower one stays the lower one. *)
Theorem collide_tangent (A B : Ring) :
  overlapping A B →
  vy (collide A B).1 == (vy A + vy B) / 2 ∧
  vy (collide A B).2 == (vy A + vy B) / 2 ∧
  Qabs (y (collide A B).1 - y (collide A B).2) == r A + r B ∧
  (y B < y A → y (collide A B).1 - y (collide A B).2 == r A + r B) ∧
  (y A <= y B → y (collide A B).2 - y (collide A B).1 == r A + r B).
Proof.
  unfold overlapping. intros Hov.
  assert (0 <= r A + r B) as Hr.
  { eapply Qle_trans; [apply Qabs_nonneg | exact Hov]. }
  destruct (collide_vy A B) as [-> ->].
  destruct (collide_y A B) as [Hlt Hle].
  split; [reflexivity |]. split; [reflexivity |].
  assert (y B < y A →
          y (collide A B).1 - y (collide A B).2 == r A + r B) as H1.
  { intros H. destruct (Hlt H) as [-> ->]. field. }
  assert (y A <= y B →
          y (collide A B).2 - y (collide A B).1 == r A + r B) as H2.
  { intros H. destruct (Hle H) as [-> ->]. field. }
  split; [| split; assumption].
  destruct (Qlt_le_dec (y B) (y A)) as [H | H].
  - rewrite (H1 H). apply Qabs_pos. exact Hr.
  - rewrite <- (H2 H).
    rewrite Qabs_neg.
    + ring.
    + rewrite <- (H2 H) in Hr. lra.
Qed.

Lemma collide_tangent_witness :
  let A := mkRing (1 # 2) 1 (1 # 10) Passive in
  let B := mkRing (11 # 20) 3 (1 # 10) (Active 10) in
  vy (collide A B).1 == (vy A + vy B) / 2 ∧
  vy (collide A B).2 == (vy A + vy B) / 2 ∧
  Qabs (y (collide A B).1 - y (collide A B).2) == r A + r B ∧
  (y B < y A → y (collide A B).1 - y (collide A B).2 == r A + r B) ∧
  (y A <= y B → y (collide A B).2 - y (collide A B).1 == r A + r B).
Proof.
  apply (collide_tangent (mkRing (1 # 2) 1 (1 # 10) Passive)
                         (mkRing (11 # 20) 3 (1 # 10) (Active 10))).
  vm_compute. discriminate.
Defined.

(** C10.  [collide] conserves the sum of the two velocities. *)
Theorem collide_momentum (A B : Ring) :
  vy (collide A B).1 + vy (collide A B).2 == vy A + vy B.
Proof.
  destruct (collide_vy A B) as [-> ->]. field.
Qed.

(** *** Construction *)

Lemma foldl_append_const {A B} (x : A) (l : list B) (acc : list A) :
  foldl (fun acc (_ : B) => acc ++ [x]) acc l = acc ++ replicate (length l) x.
Proof.
  revert acc. induction l as [| b l IH]; intros acc; simpl.
  - symmetry. apply app_nil_r.
  - rewrite IH. rewrite <- app_assoc. reflexivity.
Qed.

Lemma range_length (n : Z) : length (range n) = Z.to_nat n.
Proof. unfold range. apply length_seq. Qed.

(** The rings built by the constructor: [N-1] passive ones, then the active
    one. *)
Lemma Simulator_init_rings (N : Z) (F dt0 : Q) :
  rings (Simulator_init N F dt0) =
  replicate (Z.to_nat (N - 1)) (PassiveRing (1 # 10) (1 # 10))
    ++ [ActiveRing (1 # 10) F (1 # 10)].
Proof.
  unfold Simulator_init. cbn [rings].
  rewrite foldl_append_const, range_length. reflexivity.
Qed.

Lemma reverse_range_pairs (n : nat) :
  (fun i => (i, i + 1)%nat) <$> reverse (seq 0 n) = spec_pairs n.
Proof.
  induction n as [| n IH].
  - reflexivity.
  - rewrite seq_S, reverse_snoc, fmap_cons, IH. simpl.
    rewrite Nat.add_1_r. reflexivity.
Qed.

Lemma Simulator_init_pairs (N : Z) (F dt0 : Q) :
  pairs (Simulator_init N F dt0) = spec_pairs (Z.to_nat (N - 1)).
Proof. unfold Simulator_init, range. cbn [pairs]. apply reverse_range_pairs. Qed.

Lemma spec_pairs_length (n : nat) : length (spec_pairs n) = n.
Proof. induction n; simpl; congruence. Qed.

Lemma spec_pairs_lookup (n k : nat) :
  (k < n)%nat → spec_pairs n !! k = Some (n - 1 - k, n - k)%nat.
Proof.
  revert k. induction n as [| n IH]; intros k Hk; [lia |].
  destruct k as [| k]; simpl.
  - do 2 f_equal. lia.
  - rewrite IH by lia. do 2 f_equal. lia.
Qed.

Lemma spec_pairs_adjacent (n : nat) (p : nat * nat) :
  p ∈ spec_pairs n → p.2 = S p.1 ∧ (p.1 < n)%nat.
Proof.
  induction n as [| n IH]; simpl; intros H.
  - inversion H.
  - apply elem_of_cons in H as [-> | H]; simpl; [lia |].
    destruct (IH H). lia.
Qed.

(** With no pair to check, a tick only moves the rings. *)
Lemma update_no_pairs (s : Simulator) :
  pairs s = [] →
  update s = Some {| rings := update_moves s; pairs := []; dt := dt s |}.
Proof. intros E. unfold update. rewrite E. reflexivity. Qed.

Lemma ticks_single_ring (m : nat) (ring : Ring) (dt0 : Q) :
  ticks m {| rings := [ring]; pairs := []; dt := dt0 |} =
  Some {| rings := [Nat.iter m (fun x => move x dt0) ring];
          pairs := []; dt := dt0 |}.
Proof.
  revert ring. induction m as [| m IH]; intros ring.
  - reflexivity.
  - cbn [ticks]. rewrite update_no_pairs by reflexivity.
    rewrite Nat.iter_succ_r. rewrite <- IH. reflexivity.
Qed.

(** C5.  For [N >= 1] the pairs are [(i, i+1)] for [i = N-2, ..., 0], in
    that order: the [k]-th pair is [(N-2-k, N-1-k)].  For [N = 3] they are
    [(1,2), (0,1)].  For [N = 1] there is none, and any number of ticks only
    moves the single active ring: [collide] is never reached. *)
Theorem Simulator_init_pairs_order (N : Z) (F dt0 : Q) :
  (1 <= N)%Z →
  let n := Z.to_nat (N - 1) in
  pairs (Simulator_init N F dt0) = spec_pairs n ∧
  length (pairs (Simulator_init N F dt0)) = n ∧
  (∀ k, (k < n)%nat →
        pairs (Simulator_init N F dt0) !! k = Some (n - 1 - k, n - k)%nat) ∧
  (N = 3%Z → pairs (Simulator_init N F dt0) = [(1, 2); (0, 1)]%nat) ∧
  (N = 1%Z →
   pairs (Simulator_init N F dt0) = [] ∧
   ∀ m, ticks m (Simulator_init N F dt0) =
        Some {| rings := [Nat.iter m (fun x => move x dt0)
                            (ActiveRing (1 # 10) F (1 # 10))];
                pairs := []; dt := dt0 |}).
Proof.
  intros _ n. subst n. rewrite Simulator_init_pairs.
  split; [reflexivity |].
  split; [apply spec_pairs_length |].
  split; [intros k Hk; apply spec_pairs_lookup; exact Hk |].
  split; [intros ->; reflexivity |].
  intros ->. split; [reflexivity |].
  intros m. apply (ticks_single_ring m).
Qed.

Lemma Simulator_init_pairs_order_witness :
  pairs (Simulator_init 3 10 (1 # 100)) = spec_pairs 2 ∧
  length (pairs (Simulator_init 3 10 (1 # 100))) = 2%nat ∧
  (∀ k, (k < 2)%nat →
        pairs (Simulator_init 3 10 (1 # 100)) !! k
        = Some (2 - 1 - k, 2 - k)%nat) ∧
  (3%Z = 3%Z →
   pairs (Simulator_init 3 10 (1 # 100)) = [(1, 2); (0, 1)]%nat) ∧
  (3%Z = 1%Z →
   pairs (Simulator_init 3 10 (1 # 100)) = [] ∧
   ∀ m, ticks m (Simulator_init 3 10 (1 # 100)) =
        Some {| rings := [Nat.iter m (fun x => move x (1 # 100))
                            (ActiveRing (1 # 10) 10 (1 # 10))];
                pairs := []; dt := 1 # 100 |}).
Proof.
  apply (Simulator_init_pairs_order 3 10 (1 # 100)). lia.
Defined.

(** C6.  For [N >= 1] and every [F] the constructor makes exactly [N]
    rings: those at indices [0 .. N-2] are passive, the one at index [N-1]
    is active with self-acceleration [F]; every ring has the radius [0.1],
    the height [0.1] (its radius) and the velocity [0]. *)
Theorem Simulator_init_rings_layout (N : Z) (F dt0 : Q) :
  (1 <= N)%Z →
  length (rings (Simulator_init N F dt0)) = Z.to_nat N ∧
  (∀ i, (i < Z.to_nat N - 1)%nat →
        rings (Simulator_init N F dt0) !! i
        = Some {| y := 1 # 10; vy := 0; r := 1 # 10; role := Passive |}) ∧
  rings (Simulator_init N F dt0) !! (Z.to_nat N - 1)%nat
  = Some {| y := 1 # 10; vy := 0; r := 1 # 10; role := Active F |} ∧
  Forall (fun ring => r ring = 1 # 10 ∧ y ring = r ring ∧ vy ring = 0)
         (rings (Simulator_init N F dt0)).
Proof.
  intros HN. rewrite Simulator_init_rings.
  replace (Z.to_nat (N - 1)) with (Z.to_nat N - 1)%nat by lia.
  set (n := (Z.to_nat N - 1)%nat).
  split; [| split; [| split]].
  - rewrite length_app, length_replicate. simpl. lia.
  - intros i Hi. rewrite lookup_app_l by (rewrite length_replicate; exact Hi).
    apply lookup_replicate_2. exact Hi.
  - rewrite lookup_app_r by (rewrite length_replicate; lia).
    rewrite length_replicate, Nat.sub_diag. reflexivity.
  - apply Forall_app. split.
    + apply Forall_replicate. repeat split.
    + apply Forall_singleton. repeat split.
Qed.

Lemma Simulator_init_rings_layout_witness :
  length (rings (Simulator_init 10 10 (1 # 100))) = Z.to_nat 10 ∧
  (∀ i, (i < Z.to_nat 10 - 1)%nat →
        rings (Simulator_init 10 10 (1 # 100)) !! i
        = Some {| y := 1 # 10; vy := 0; r := 1 # 10; role := Passive |}) ∧
  rings (Simulator_init 10 10 (1 # 100)) !! (Z.to_nat 10 - 1)%nat
  = Some {| y := 1 # 10; vy := 0; r := 1 # 10; role := Active 10 |} ∧
  Forall (fun ring => r ring = 1 # 10 ∧ y ring = r ring ∧ vy ring = 0)
         (rings (Simulator_init 10 10 (1 # 100))).
Proof.
  apply (Simulator_init_rings_layout 10 10 (1 # 100)). lia.
Defined.

Lemma Simulator_init_single (N : Z) (F dt0 : Q) :
  (N <= 1)%Z →
  rings (Simulator_init N F dt0) = [ActiveRing (1 # 10) F (1 # 10)] ∧
  pairs (Simulator_init N F dt0) = [].
Proof.
  intros HN. rewrite Simulator_init_rings, Simulator_init_pairs.
  replace (Z.to_nat (N - 1)) with 0%nat by lia. split; reflexivity.
Qed.

(** C7, as the specification states it, fails for [N = 0]: the constructor
    returns a chain. *)
Lemma spec_fail_fast_refuted : ¬ spec_fail_fast 0 10 (1 # 100).
Proof.
  unfold spec_fail_fast. intros H.
  assert (¬ spec_in_range 0 (1 # 100)) as Hout.
  { intros [HN _]. lia. }
  specialize (H Hout). discriminate H.
Qed.

(** C7, amended.  The constructor checks nothing: for every [N], [F] and
    [dt], also [N <= 0] and [dt <= 0], it returns a chain that stores [dt]
    as given; for [N <= 1] the chain is the single active ring with no
    pairs.  The radius is not an input: every ring gets [0.1]. *)
Theorem Simulator_call_never_rejects (N : Z) (F dt0 : Q) :
  Simulator_call N F dt0 = Some (Simulator_init N F dt0) ∧
  dt (Simulator_init N F dt0) = dt0 ∧
  length (rings (Simulator_init N F dt0)) = Z.to_nat (Z.max N 1) ∧
  Forall (fun ring => r ring = 1 # 10) (rings (Simulator_init N F dt0)) ∧
  ((N <= 1)%Z →
   rings (Simulator_init N F dt0) = [ActiveRing (1 # 10) F (1 # 10)] ∧
   pairs (Simulator_init N F dt0) = []).
Proof.
  split; [reflexivity |]. split; [reflexivity |].
  split; [| split; [| apply Simulator_init_single]].
  - rewrite Simulator_init_rings, length_app, length_replicate. simpl. lia.
  - rewrite Simulator_init_rings. apply Forall_app. split.
    + apply Forall_replicate. reflexivity.
    + apply Forall_singleton. reflexivity.
Qed.

(** *** The tick *)

Lemma update_pairs_app (ps1 ps2 : list (nat * nat)) (rs : list Ring) :
  update_pairs (ps1 ++ ps2) rs =
  (rs' ← update_pairs ps1 rs; update_pairs ps2 rs').
Proof.
  revert rs. induction ps1 as [| p ps1 IH]; intros rs; simpl.
  - reflexivity.
  - destruct (update_pair rs p) as [rs1 |]; simpl; [apply IH | reflexivity].
Qed.

Lemma update_pair_skip (rs : list Ring) (i j : nat) (a b : Ring) :
  rs !! i = Some a → rs !! j = Some b → overlapping a b →
  update_pair rs (i, j) = Some rs.
Proof.
  unfold overlapping, update_pair. intros -> -> H.
  cbn [mbind option_bind]. apply Qle_bool_iff in H. rewrite H. reflexivity.
Qed.

Lemma update_pair_collide (rs : list Ring) (i j : nat) (a b : Ring) :
  rs !! i = Some a → rs !! j = Some b → apart a b →
  update_pair rs (i, j) = Some (collide_at rs i j a b).
Proof.
  unfold apart, update_pair, collide_at. intros -> -> H.
  cbn [mbind option_bind].
  destruct (Qle_bool (Qabs (y a - y b)) (r a + r b)) eqn:E.
  - apply Qle_bool_iff in E. lra.
  - destruct (collide a b). reflexivity.
Qed.

Lemma collide_at_length (rs : list Ring) (i j : nat) (a b : Ring) :
  length (collide_at rs i j a b) = length rs.
Proof. unfold collide_at. rewrite !length_insert. reflexivity. Qed.

(** Both objects are mutated, nothing else is. *)
Lemma collide_at_lookup (rs : list Ring) (i : nat) (a b : Ring) :
  rs !! i = Some a → rs !! S i = Some b →
  collide_at rs i (S i) a b !! i = Some (collide a b).1 ∧
  collide_at rs i (S i) a b !! S i = Some (collide a b).2 ∧
  ∀ k, k ≠ i → k ≠ S i → collide_at rs i (S i) a b !! k = rs !! k.
Proof.
  intros Ha Hb. unfold collide_at.
  apply lookup_lt_Some in Ha. apply lookup_lt_Some in Hb.
  split; [| split].
  - rewrite list_lookup_insert_ne by lia.
    apply list_lookup_insert_eq. exact Ha.
  - apply list_lookup_insert_eq. rewrite length_insert. exact Hb.
  - intros k Hi Hj. rewrite !list_lookup_insert_ne by lia. reflexivity.
Qed.

(** C1, as the specification states it, fails in the first tick of a chain
    of two rings with [F = 10] and [dt = 0.01]: the two rings overlap after
    the moves and the pair is skipped. *)
Lemma spec_pair_rule_refuted :
  ¬ spec_pair_rule (update_moves (Simulator_init 2 10 (1 # 100))) 0.
Proof.
  intros H.
  destruct (H (move (PassiveRing (1 # 10) (1 # 10)) (1 # 100))
              (move (ActiveRing (1 # 10) 10 (1 # 10)) (1 # 100))
              eq_refl eq_refl) as [_ Hov].
  destruct Hov as (rs' & E & Heq).
  - vm_compute. discriminate.
  - vm_compute in E. injection E as <-.
    inversion Heq as [| x x' l l' Hx _]; subst.
    destruct Hx as [Hy _]. vm_compute in Hy. discriminate Hy.
Qed.

(** C1, amended.  Inside [update], when the loop reaches the adjacent pair
    [(i, i+1)] with the rings [rs] as the earlier pairs left them: if
    [|y_i - y_j| <= r_i + r_j] the pair is skipped and the loop goes on with
    [rs]; if [|y_i - y_j| > r_i + r_j], [collide] is run on the two rings,
    both are mutated in place (no other ring is), and the loop goes on
    with the mutated rings. *)
Theorem update_pair_rule (s : Simulator) (ps1 ps2 : list (nat * nat))
    (i : nat) (rs : list Ring) (a b : Ring) :
  pairs s = ps1 ++ (i, S i) :: ps2 →
  update_pairs ps1 (update_moves s) = Some rs →
  rs !! i = Some a → rs !! S i = Some b →
  (overlapping a b →
   update_pair rs (i, S i) = Some rs ∧
   update s = (rs' ← update_pairs ps2 rs;
               Some {| rings := rs'; pairs := pairs s; dt := dt s |})) ∧
  (apart a b →
   update_pair rs (i, S i) = Some (collide_at rs i (S i) a b) ∧
   update s = (rs' ← update_pairs ps2 (collide_at rs i (S i) a b);
               Some {| rings := rs'; pairs := pairs s; dt := dt s |}) ∧
   collide_at rs i (S i) a b !! i = Some (collide a b).1 ∧
   collide_at rs i (S i) a b !! S i = Some (collide a b).2 ∧
   ∀ k, k ≠ i → k ≠ S i → collide_at rs i (S i) a b !! k = rs !! k).
Proof.
  intros Hps Hrs Ha Hb.
  assert (∀ rs1, update_pair rs (i, S i) = Some rs1 →
          update s = (rs' ← update_pairs ps2 rs1;
                      Some {| rings := rs'; pairs := pairs s; dt := dt s |}))
    as Hloop.
  { intros rs1 E. unfold update. rewrite Hps at 1.
    rewrite update_pairs_app, Hrs. cbn [mbind option_bind update_pairs].
    rewrite E. reflexivity. }
  split; intros H.
  - pose proof (update_pair_skip rs i (S i) a b Ha Hb H) as E.
    split; [exact E | apply Hloop; exact E].
  - pose proof (update_pair_collide rs i (S i) a b Ha Hb H) as E.
    split; [exact E |]. split; [apply Hloop; exact E |].
    apply collide_at_lookup; assumption.
Qed.

Lemma update_pair_rule_witness :
  let s := Simulator_init 2 10 1 in
  let rs := update_moves s in
  let a := move (PassiveRing (1 # 10) (1 # 10)) 1 in
  let b := move (ActiveRing (1 # 10) 10 (1 # 10)) 1 in
  (overlapping a b →
   update_pair rs (0, 1)%nat = Some rs ∧
   update s = (rs' ← update_pairs [] rs;
               Some {| rings := rs'; pairs := pairs s; dt := dt s |})) ∧
  (apart a b →
   update_pair rs (0, 1)%nat = Some (collide_at rs 0 1 a b) ∧
   update s = (rs' ← update_pairs [] (collide_at rs 0 1 a b);
               Some {| rings := rs'; pairs := pairs s; dt := dt s |}) ∧
   collide_at rs 0 1 a b !! 0%nat = Some (collide a b).1 ∧
   collide_at rs 0 1 a b !! 1%nat = Some (collide a b).2 ∧
   ∀ k, k ≠ 0%nat → k ≠ 1%nat → collide_at rs 0 1 a b !! k = rs !! k).
Proof.
  intros s rs a b.
  apply (update_pair_rule s [] [] 0 rs a b); reflexivity.
Defined.

Lemma update_moves_length (s : Simulator) :
  length (update_moves s) = length (rings s).
Proof. unfold update_moves. apply length_fmap. Qed.

(** When every pair is skipped the second loop returns the rings as they
    were. *)
Lemma update_pairs_all_skip (ps : list (nat * nat)) (rs : list Ring) :
  pairs_in_range ps rs → every_pair overlapping ps rs →
  update_pairs ps rs = Some rs.
Proof.
  unfold pairs_in_range, every_pair.
  induction ps as [| [i j] ps IH]; intros Hr He; [reflexivity |].
  apply Forall_cons in Hr as [[Hi Hj] Hr].
  apply Forall_cons in He as [Hov He]. simpl in Hi, Hj, Hov.
  destruct (lookup_lt_is_Some_2 rs i Hi) as [a Ha].
  destruct (lookup_lt_is_Some_2 rs j Hj) as [b Hb].
  cbn [update_pairs].
  rewrite (update_pair_skip rs i j a b Ha Hb (Hov a b Ha Hb)).
  cbn [mbind option_bind]. apply IH; assumption.
Qed.

(** C2, as the specification states it, fails for a chain of two rings with
    [F = 10] and [dt = 1]: after the moves the rings are apart, and the
    second loop moves both and changes both velocities. *)
Lemma spec_no_overlap_noop_refuted :
  ¬ spec_no_overlap_noop (Simulator_init 2 10 1).
Proof.
  intros H. destruct H as (rs' & E & Heq).
  - constructor; [| constructor].
    intros a b Ha Hb. vm_compute in Ha, Hb.
    injection Ha as <-. injection Hb as <-. reflexivity.
  - vm_compute in E. injection E as <-.
    inversion Heq as [| x x' l l' Hx _]; subst.
    destruct Hx as [Hy _]. vm_compute in Hy. discriminate Hy.
Qed.

(** C2, amended.  For every chain state whose pairs index existing rings:
    if after the moves every adjacent pair has
    [|y_i - y_{i+1}| <= r_i + r_{i+1}], the second loop of [update] changes
    no ring, and the tick returns the rings exactly as the moves left
    them. *)
Theorem update_no_collision_noop (s : Simulator) :
  pairs_in_range (pairs s) (rings s) →
  every_pair overlapping (pairs s) (update_moves s) →
  update_pairs (pairs s) (update_moves s) = Some (update_moves s) ∧
  update s = Some {| rings := update_moves s; pairs := pairs s; dt := dt s |}.
Proof.
  intros Hr He.
  assert (update_pairs (pairs s) (update_moves s) = Some (update_moves s))
    as E.
  { apply update_pairs_all_skip; [| exact He].
    unfold pairs_in_range in *. rewrite update_moves_length. exact Hr. }
  split; [exact E |]. unfold update. rewrite E. reflexivity.
Qed.

Lemma update_no_collision_noop_witness :
  let s := Simulator_init 2 10 (1 # 100) in
  update_pairs (pairs s) (update_moves s) = Some (update_moves s) ∧
  update s = Some {| rings := update_moves s; pairs := pairs s; dt := dt s |}.
Proof.
  intros s. apply (update_no_collision_noop s).
  - repeat constructor.
  - constructor; [| constructor].
    intros a b Ha Hb. vm_compute in Ha, Hb.
    injection Ha as <-. injection Hb as <-. vm_compute. discriminate.
Defined.

(** *** [collide] and the floor *)

(** C9, as the specification states it, fails: [update] skips every
    overlapping pair, so in a tick the resolution of an overlapping pair
    leaves both rings where they were, on or above the floor. *)
Lemma spec_transient_violation_refuted : ¬ spec_transient_violation.
Proof.
  intros (rs & rs' & i & a & b & a' & b' & Ha & Hb & Fa & Fb & Hov & E
          & Ha' & Hb' & Hbelow).
  rewrite (update_pair_skip rs i (S i) a b Ha Hb Hov) in E.
  injection E as <-.
  rewrite Ha in Ha'. injection Ha' as <-.
  rewrite Hb in Hb'. injection Hb' as <-.
  unfold on_or_above_floor in Fa, Fb. destruct Hbelow; lra.
Qed.

(** C9, amended.  [collide] has no floor clamp: its outcome is given by the
    same formulas whatever the sign of [y - r] afterwards, so it never
    resets [y] to [r] or [vy] to [0].  Called directly on two overlapping
    rings resting on the floor it leaves the lower one with [y - r < 0],
    [y] different from [r] and [vy] different from [0].  [update] never
    makes that call: it skips an overlapping pair and leaves the rings as
    they are. *)
Theorem collide_no_floor_clamp :
  (∀ A B, y A <= y B →
     y (collide A B).1 - r (collide A B).1
       == (y A + r A + y B - r B) / 2 - r A - r A ∧
     vy (collide A B).1 == (vy A + vy B) / 2 ∧
     vy (collide A B).2 == (vy A + vy B) / 2) ∧
  (∀ A B, y B < y A →
     y (collide A B).2 - r (collide A B).2
       == (y B + r B + y A - r A) / 2 - r B - r B ∧
     vy (collide A B).1 == (vy A + vy B) / 2 ∧
     vy (collide A B).2 == (vy A + vy B) / 2) ∧
  (∃ A B,
     overlapping A B ∧ 0 <= y A - r A ∧ 0 <= y B - r B ∧
     y (collide A B).1 - r (collide A B).1 < 0 ∧
     ¬ y (collide A B).1 == r (collide A B).1 ∧
     ¬ vy (collide A B).1 == 0) ∧
  (∀ (rs : list Ring) (i : nat) (a b : Ring),
     rs !! i = Some a → rs !! S i = Some b → overlapping a b →
     update_pair rs (i, S i) = Some rs).
Proof.
  split; [| split; [| split]].
  - intros A B H. destruct (collide_vy A B) as [-> ->].
    destruct (collide_r_role A B) as (-> & _).
    destruct (collide_y A B) as [_ Hle]. destruct (Hle H) as [-> _].
    repeat split; reflexivity.
  - intros A B H. destruct (collide_vy A B) as [-> ->].
    destruct (collide_r_role A B) as (_ & -> & _).
    destruct (collide_y A B) as [Hlt _]. destruct (Hlt H) as [_ ->].
    repeat split; reflexivity.
  - exists (mkRing (1 # 10) 1 (1 # 10) Passive),
           (mkRing (1 # 10) 1 (1 # 10) (Active 10)).
    vm_compute. repeat split; discriminate.
  - intros rs i a b Ha Hb Hov. apply (update_pair_skip rs i (S i) a b Ha Hb Hov).
Qed.

(** *** The tick never raises on a constructed chain *)

Lemma Simulator_init_in_range (N : Z) (F dt0 : Q) :
  pairs_in_range (pairs (Simulator_init N F dt0))
                 (rings (Simulator_init N F dt0)).
Proof.
  unfold pairs_in_range. rewrite Simulator_init_pairs, Simulator_init_rings.
  rewrite length_app, length_replicate. simpl.
  apply Forall_forall. intros p Hp.
  destruct (spec_pairs_adjacent _ _ Hp) as [E Hlt]. lia.
Qed.

Lemma update_pair_total (rs : list Ring) (i j : nat) :
  (i < length rs)%nat → (j < length rs)%nat →
  ∃ rs', update_pair rs (i, j) = Some rs' ∧ length rs' = length rs.
Proof.
  intros Hi Hj.
  destruct (lookup_lt_is_Some_2 rs i Hi) as [a Ha].
  destruct (lookup_lt_is_Some_2 rs j Hj) as [b Hb].
  unfold update_pair. rewrite Ha, Hb. cbn [mbind option_bind].
  destruct (Qle_bool _ _).
  - exists rs. split; reflexivity.
  - destruct (collide a b) as [a' b']. eexists. split; [reflexivity |].
    rewrite !length_insert. reflexivity.
Qed.

Lemma update_pairs_total (ps : list (nat * nat)) (rs : list Ring) :
  pairs_in_range ps rs →
  ∃ rs', update_pairs ps rs = Some rs' ∧ length rs' = length rs.
Proof.
  unfold pairs_in_range. revert rs.
  induction ps as [| [i j] ps IH]; intros rs Hr.
  - exists rs. split; reflexivity.
  - apply Forall_cons in Hr as [[Hi Hj] Hr]. simpl in Hi, Hj.
    destruct (update_pair_total rs i j Hi Hj) as (rs1 & E1 & L1).
    destruct (IH rs1) as (rs2 & E2 & L2).
    { rewrite L1. exact Hr. }
    exists rs2. cbn [update_pairs]. rewrite E1. cbn [mbind option_bind].
    split; [exact E2 | congruence].
Qed.

(** A tick on a chain whose pairs are in range returns a chain of the same
    shape. *)
Lemma update_total (s : Simulator) :
  pairs_in_range (pairs s) (rings s) →
  ∃ s', update s = Some s' ∧ pairs s' = pairs s ∧ dt s' = dt s ∧
        length (rings s') = length (rings s) ∧
        pairs_in_range (pairs s') (rings s').
Proof.
  intros Hr.
  destruct (update_pairs_total (pairs s) (update_moves s)) as (rs' & E & L).
  { unfold pairs_in_range in *. rewrite update_moves_length. exact Hr. }
  rewrite update_moves_length in L.
  eexists. unfold update. rewrite E. cbn [mbind option_bind].
  split; [reflexivity |]. cbn [pairs dt rings].
  repeat split; try assumption.
  unfold pairs_in_range in *. rewrite L. exact Hr.
Qed.

(** Any number of ticks on a constructed chain completes. *)
Lemma ticks_total (m : nat) (s : Simulator) :
  pairs_in_range (pairs s) (rings s) →
  ∃ s', ticks m s = Some s' ∧ pairs s' = pairs s ∧
        length (rings s') = length (rings s).
Proof.
  revert s. induction m as [| m IH]; intros s Hr.
  - exists s. repeat split.
  - destruct (update_total s Hr) as (s1 & E1 & P1 & _ & L1 & R1).
    destruct (IH s1 R1) as (s2 & E2 & P2 & L2).
    exists s2. cbn [ticks]. rewrite E1. cbn [mbind option_bind].
    repeat split; congruence.
Qed.

(** ** Further properties of the code *)

(** Linear arithmetic with halves: [x / 2] is read as [x * (1 # 2)]. *)
Ltac qlra := unfold Qdiv in *; cbn [Qinv Qnum Qden] in *; lra.

(** *** [collide] *)

Lemma Role_eq_refl (k : Role) : Role_eq k k.
Proof. destruct k; simpl; [exact I | reflexivity]. Qed.

(** X1.  [collide] moves the two rings by the same amount in opposite
    directions: the sum of the two heights is the same before and after,
    whatever the radii and whichever ring is the lower one. *)
Theorem collide_centre_of_mass (A B : Ring) :
  y (collide A B).1 + y (collide A B).2 == y A + y B.
Proof.
  destruct (collide_y A B) as [Hlt Hle].
  destruct (Qlt_le_dec (y B) (y A)) as [H | H].
  - destruct (Hlt H) as [-> ->]. field.
  - destruct (Hle H) as [-> ->]. field.
Qed.

(** X2.  The order of the two arguments of [collide] only matters when the two
    rings are at the same height: when the heights differ, [collide(B, A)]
    leaves each ring as [collide(A, B)] does. *)
Theorem collide_swap (A B : Ring) :
  y A < y B ∨ y B < y A →
  Ring_eq (collide B A).1 (collide A B).2 ∧
  Ring_eq (collide B A).2 (collide A B).1.
Proof.
  intros H.
  destruct (collide_vy A B) as [V1 V2]. destruct (collide_vy B A) as [W1 W2].
  destruct (collide_r_role A B) as (R1 & R2 & K1 & K2).
  destruct (collide_r_role B A) as (S1 & S2 & L1 & L2).
  destruct (collide_y A B) as [Hlt Hle]. destruct (collide_y B A) as [Glt Gle].
  unfold Ring_eq.
  rewrite V1, V2, W1, W2, R1, R2, S1, S2, K1, K2, L1, L2.
  destruct H as [H | H].
  - destruct (Hle (Qlt_le_weak _ _ H)) as [-> ->].
    destruct (Glt H) as [-> ->].
    repeat split; try apply Role_eq_refl; field.
  - destruct (Hlt H) as [-> ->].
    destruct (Gle (Qlt_le_weak _ _ H)) as [-> ->].
    repeat split; try apply Role_eq_refl; field.
Qed.

Lemma collide_swap_witness :
  let A := mkRing (1 # 10) 0 (1 # 10) Passive in
  let B := mkRing (1 # 2) 3 (1 # 5) (Active 10) in
  Ring_eq (collide B A).1 (collide A B).2 ∧
  Ring_eq (collide B A).2 (collide A B).1.
Proof.
  apply (collide_swap (mkRing (1 # 10) 0 (1 # 10) Passive)
                      (mkRing (1 # 2) 3 (1 # 5) (Active 10))).
  left. reflexivity.
Defined.

(** At equal heights the order does matter: the first argument is the one
    pushed down. *)
Lemma collide_tie (A B : Ring) :
  y A == y B →
  y (collide A B).1 == y A - (r A + r B) / 2 ∧
  y (collide A B).2 == y B + (r A + r B) / 2.
Proof.
  intros E. destruct (collide_y A B) as [_ Hle].
  destruct Hle as [-> ->]; [lra |]. split; qlra.
Qed.

(** Two rings that are apart, with radii that are not negative and both on
    or above the floor, are on or above the floor after [collide]. *)
Lemma collide_floor (A B : Ring) :
  apart A B → 0 <= r A → 0 <= r B →
  on_or_above_floor A → on_or_above_floor B →
  on_or_above_floor (collide A B).1 ∧ on_or_above_floor (collide A B).2.
Proof.
  unfold apart, on_or_above_floor. intros Hap HrA HrB HA HB.
  destruct (collide_r_role A B) as (-> & -> & _).
  destruct (collide_y A B) as [Hlt Hle].
  destruct (Qlt_le_dec (y B) (y A)) as [H | H].
  - destruct (Hlt H) as [-> ->].
    rewrite Qabs_pos in Hap by lra. split; qlra.
  - destruct (Hle H) as [-> ->].
    rewrite Qabs_neg in Hap by lra. split; qlra.
Qed.

(** *** One pair of the second loop *)

(** What [update_pair] returns, by the test of line 78. *)
Lemma update_pair_cases (rs rs' : list Ring) (i j : nat) (a b : Ring) :
  rs !! i = Some a → rs !! j = Some b →
  update_pair rs (i, j) = Some rs' →
  (overlapping a b ∧ rs' = rs) ∨
  (apart a b ∧ rs' = collide_at rs i j a b).
Proof.
  intros Ha Hb E.
  destruct (Qlt_le_dec (r a + r b) (Qabs (y a - y b))) as [H | H].
  - right. split; [exact H |].
    rewrite (update_pair_collide rs i j a b Ha Hb H) in E. congruence.
  - left. split; [exact H |].
    rewrite (update_pair_skip rs i j a b Ha Hb H) in E. congruence.
Qed.

Lemma update_pair_lookups (rs rs' : list Ring) (i j : nat) :
  update_pair rs (i, j) = Some rs' →
  ∃ a b, rs !! i = Some a ∧ rs !! j = Some b.
Proof.
  unfold update_pair. intros E.
  destruct (rs !! i) as [a |]; [| discriminate E].
  destruct (rs !! j) as [b |]; [| discriminate E].
  exists a, b. split; reflexivity.
Qed.

(** Replacing one ring changes a total by the difference of the ring's
    attribute. *)
Lemma total_insert (f : Ring → Q) (rs : list Ring) (i : nat) (a a' : Ring) :
  rs !! i = Some a →
  total f (<[i := a']> rs) == total f rs - f a + f a'.
Proof.
  revert i. induction rs as [| x rs IH]; intros i Hi; [discriminate Hi |].
  destruct i as [| i]; simpl in *.
  - injection Hi as ->. lra.
  - rewrite (IH i Hi). lra.
Qed.

Lemma collide_at_total (f : Ring → Q) (rs : list Ring) (i j : nat)
    (a b : Ring) :
  i ≠ j → rs !! i = Some a → rs !! j = Some b →
  f (collide a b).1 + f (collide a b).2 == f a + f b →
  total f (collide_at rs i j a b) == total f rs.
Proof.
  intros Hne Ha Hb Hf. unfold collide_at.
  rewrite (total_insert f _ j b).
  - rewrite (total_insert f rs i a _ Ha). lra.
  - rewrite list_lookup_insert_ne by congruence. exact Hb.
Qed.

Lemma update_pair_totals (rs rs' : list Ring) (i j : nat) :
  i ≠ j → update_pair rs (i, j) = Some rs' →
  total vy rs' == total vy rs ∧ total y rs' == total y rs.
Proof.
  intros Hne E.
  destruct (update_pair_lookups rs rs' i j E) as (a & b & Ha & Hb).
  destruct (update_pair_cases rs rs' i j a b Ha Hb E) as [[_ ->] | [_ ->]].
  - split; reflexivity.
  - split; apply collide_at_total; try assumption.
    + destruct (collide_vy a b) as [-> ->]. field.
    + destruct (collide_y a b) as [Hlt Hle].
      destruct (Qlt_le_dec (y b) (y a)) as [C | C].
      * destruct (Hlt C) as [-> ->]. field.
      * destruct (Hle C) as [-> ->]. field.
Qed.

Lemma update_pairs_totals (ps : list (nat * nat)) (rs rs' : list Ring) :
  Forall (fun p => p.1 ≠ p.2) ps →
  update_pairs ps rs = Some rs' →
  total vy rs' == total vy rs ∧ total y rs' == total y rs.
Proof.
  revert rs. induction ps as [| [i j] ps IH]; intros rs Hd E.
  - injection E as <-. split; reflexivity.
  - apply Forall_cons in Hd as [Hne Hd]. simpl in Hne.
    cbn [update_pairs] in E.
    destruct (update_pair rs (i, j)) as [rs1 |] eqn:E1; [| discriminate E].
    cbn [mbind option_bind] in E.
    destruct (update_pair_totals rs rs1 i j Hne E1) as [V1 Y1].
    destruct (IH rs1 Hd E) as [V2 Y2].
    split; [rewrite V2; exact V1 | rewrite Y2; exact Y1].
Qed.

(** *** The whole tick *)

(** X4.  The second loop of a tick redistributes velocity and height between the
    rings and creates none: on a chain whose pairs name two different
    existing rings each, [update] returns, and the sum of the velocities and
    the sum of the heights of all rings are what the moves left. *)
Theorem update_conserves_totals (s : Simulator) :
  pairs_in_range (pairs s) (rings s) →
  Forall (fun p => p.1 ≠ p.2) (pairs s) →
  ∃ s', update s = Some s' ∧
        total vy (rings s') == total vy (update_moves s) ∧
        total y (rings s') == total y (update_moves s).
Proof.
  intros Hr Hd.
  destruct (update_pairs_total (pairs s) (update_moves s)) as (rs' & E & _).
  { unfold pairs_in_range in *. rewrite update_moves_length. exact Hr. }
  exists {| rings := rs'; pairs := pairs s; dt := dt s |}.
  split; [unfold update; rewrite E; reflexivity |].
  apply (update_pairs_totals (pairs s) _ _ Hd E).
Qed.

Lemma update_conserves_totals_witness :
  let s := Simulator_init 3 10 1 in
  ∃ s', update s = Some s' ∧
        total vy (rings s') == total vy (update_moves s) ∧
        total y (rings s') == total y (update_moves s).
Proof.
  intros s. apply (update_conserves_totals s).
  - repeat constructor.
  - repeat constructor; simpl; lia.
Defined.

Lemma update_pair_floor (rs rs' : list Ring) (i j : nat) :
  Forall (fun ring => 0 <= r ring) rs →
  Forall on_or_above_floor rs →
  update_pair rs (i, j) = Some rs' →
  Forall (fun ring => 0 <= r ring) rs' ∧ Forall on_or_above_floor rs'.
Proof.
  intros Hr Hf E.
  destruct (update_pair_lookups rs rs' i j E) as (a & b & Ha & Hb).
  destruct (update_pair_cases rs rs' i j a b Ha Hb E) as [[_ ->] | [Hap ->]].
  - split; assumption.
  - pose proof (Forall_lookup_1 _ _ _ _ Hr Ha) as Hra.
    pose proof (Forall_lookup_1 _ _ _ _ Hr Hb) as Hrb.
    pose proof (Forall_lookup_1 _ _ _ _ Hf Ha) as Hfa.
    pose proof (Forall_lookup_1 _ _ _ _ Hf Hb) as Hfb.
    simpl in Hra, Hrb.
    destruct (collide_floor a b Hap Hra Hrb Hfa Hfb) as [F1 F2].
    destruct (collide_r_role a b) as (R1 & R2 & _).
    unfold collide_at. split.
    + apply Forall_insert; [apply Forall_insert; [exact Hr |] |].
      * rewrite R1. exact Hra.
      * rewrite R2. exact Hrb.
    + apply Forall_insert; [apply Forall_insert; [exact Hf |] |]; assumption.
Qed.

Lemma update_pairs_floor (ps : list (nat * nat)) (rs rs' : list Ring) :
  Forall (fun ring => 0 <= r ring) rs →
  Forall on_or_above_floor rs →
  update_pairs ps rs = Some rs' →
  Forall (fun ring => 0 <= r ring) rs' ∧ Forall on_or_above_floor rs'.
Proof.
  revert rs. induction ps as [| [i j] ps IH]; intros rs Hr Hf E.
  - injection E as <-. split; assumption.
  - cbn [update_pairs] in E.
    destruct (update_pair rs (i, j)) as [rs1 |] eqn:E1; [| discriminate E].
    cbn [mbind option_bind] in E.
    destruct (update_pair_floor rs rs1 i j Hr Hf E1) as [Hr1 Hf1].
    apply (IH rs1 Hr1 Hf1 E).
Qed.

Lemma move_on_or_above_floor (ring : Ring) (dt0 : Q) :
  on_or_above_floor (move ring dt0).
Proof. apply move_clamp. Qed.

Lemma update_floor_step (s : Simulator) :
  pairs_in_range (pairs s) (rings s) →
  Forall (fun ring => 0 <= r ring) (rings s) →
  ∃ s', update s = Some s' ∧
        Forall on_or_above_floor (rings s') ∧
        Forall (fun ring => 0 <= r ring) (rings s').
Proof.
  intros Hr Hrad.
  destruct (update_pairs_total (pairs s) (update_moves s)) as (rs' & E & _).
  { unfold pairs_in_range in *. rewrite update_moves_length. exact Hr. }
  exists {| rings := rs'; pairs := pairs s; dt := dt s |}.
  split; [unfold update; rewrite E; reflexivity |]. cbn [rings].
  assert (Forall (fun ring => 0 <= r ring) (update_moves s)) as Hr1.
  { unfold update_moves. apply Forall_fmap.
    eapply Forall_impl; [exact Hrad |].
    intros ring H. simpl. rewrite move_r. exact H. }
  assert (Forall on_or_above_floor (update_moves s)) as Hf1.
  { unfold update_moves. apply Forall_fmap. apply Forall_true.
    intros ring. apply move_on_or_above_floor. }
  destruct (update_pairs_floor _ _ _ Hr1 Hf1 E) as [Hr2 Hf2].
  split; assumption.
Qed.

Lemma update_pair_shape (rs rs' : list Ring) (p : nat * nat) :
  update_pair rs p = Some rs' → shape rs' = shape rs.
Proof.
  destruct p as [i j]. intros E.
  destruct (update_pair_lookups rs rs' i j E) as (a & b & Ha & Hb).
  destruct (update_pair_cases rs rs' i j a b Ha Hb E) as [[_ ->] | [_ ->]].
  - reflexivity.
  - destruct (collide_r_role a b) as (R1 & R2 & K1 & K2).
    unfold shape, collide_at. rewrite !list_fmap_insert.
    rewrite R1, R2, K1, K2.
    rewrite (list_insert_id _ i (r a, role a)).
    + apply list_insert_id. rewrite list_lookup_fmap, Hb. reflexivity.
    + rewrite list_lookup_fmap, Ha. reflexivity.
Qed.

Lemma update_pairs_shape (ps : list (nat * nat)) (rs rs' : list Ring) :
  update_pairs ps rs = Some rs' → shape rs' = shape rs.
Proof.
  revert rs. induction ps as [| p ps IH]; intros rs E.
  - injection E as <-. reflexivity.
  - cbn [update_pairs] in E.
    destruct (update_pair rs p) as [rs1 |] eqn:E1; [| discriminate E].
    cbn [mbind option_bind] in E.
    rewrite (IH rs1 E). apply (update_pair_shape rs rs1 p E1).
Qed.

Lemma update_moves_shape (s : Simulator) :
  shape (update_moves s) = shape (rings s).
Proof.
  unfold shape, update_moves. rewrite <- list_fmap_compose.
  apply list_fmap_ext. intros i ring _. simpl.
  rewrite move_r, move_role. reflexivity.
Qed.

Lemma update_shape (s s' : Simulator) :
  update s = Some s' →
  shape (rings s') = shape (rings s) ∧ pairs s' = pairs s ∧ dt s' = dt s.
Proof.
  unfold update. intros E.
  destruct (update_pairs (pairs s) (update_moves s)) as [rs' |] eqn:E1;
    [| discriminate E].
  injection E as <-. cbn [rings pairs dt].
  rewrite (update_pairs_shape _ _ _ E1), update_moves_shape.
  repeat split.
Qed.

Lemma shape_length (rs1 rs2 : list Ring) :
  shape rs1 = shape rs2 → length rs1 = length rs2.
Proof.
  unfold shape. intros E. apply (f_equal length) in E.
  rewrite !length_fmap in E. exact E.
Qed.

Lemma ticks_shape_step (m : nat) (s : Simulator) :
  pairs_in_range (pairs s) (rings s) →
  ∃ s', ticks m s = Some s' ∧
        shape (rings s') = shape (rings s) ∧
        pairs s' = pairs s ∧ dt s' = dt s.
Proof.
  revert s. induction m as [| m IH]; intros s Hr.
  - exists s. repeat split.
  - destruct (update_total s Hr) as (s1 & E1 & _ & _ & _ & R1).
    destruct (update_shape s s1 E1) as (Sh1 & P1 & D1).
    destruct (IH s1 R1) as (s2 & E2 & Sh2 & P2 & D2).
    exists s2. cbn [ticks]. rewrite E1. cbn [mbind option_bind].
    repeat split; congruence.
Qed.

(** X6.  No number of ticks changes the make-up of a chain: on a chain whose
    pairs are in range, [m] calls of [update] all return, and the radius
    and variant (with its self-acceleration) of the ring in every slot, the
    pairs and [dt] are what they were at the start. *)
Theorem ticks_shape_invariant (m : nat) (s : Simulator) :
  pairs_in_range (pairs s) (rings s) →
  ∃ s', ticks m s = Some s' ∧
        shape (rings s') = shape (rings s) ∧
        pairs s' = pairs s ∧ dt s' = dt s.
Proof. apply ticks_shape_step. Qed.

Lemma ticks_shape_invariant_witness :
  let s := Simulator_init 3 10 1 in
  ∃ s', ticks 4 s = Some s' ∧
        shape (rings s') = shape (rings s) ∧
        pairs s' = pairs s ∧ dt s' = dt s.
Proof.
  intros s. apply (ticks_shape_invariant 4 s). repeat constructor.
Defined.

(** *** Runs of a constructed chain *)

Lemma ticks_floor (m : nat) (s : Simulator) :
  pairs_in_range (pairs s) (rings s) →
  Forall (fun ring => 0 <= r ring) (rings s) →
  Forall on_or_above_floor (rings s) →
  ∃ s', ticks m s = Some s' ∧ Forall on_or_above_floor (rings s').
Proof.
  revert s. induction m as [| m IH]; intros s Hr Hrad Hf.
  - exists s. split; [reflexivity | exact Hf].
  - destruct (update_floor_step s Hr Hrad) as (s1 & E1 & F1 & Rad1).
    destruct (update_total s Hr) as (s1' & E1' & _ & _ & _ & R1).
    rewrite E1 in E1'. injection E1' as <-.
    destruct (IH s1 R1 Rad1 F1) as (s2 & E2 & F2).
    exists s2. cbn [ticks]. rewrite E1. cbn [mbind option_bind].
    split; assumption.
Qed.

Lemma shape_radius (c : Q) (rs : list Ring) :
  Forall (fun ring => r ring = c) rs ↔ Forall (fun p => p.1 = c) (shape rs).
Proof. unfold shape. rewrite Forall_fmap. reflexivity. Qed.

Lemma Simulator_init_radius (N : Z) (F dt0 : Q) :
  Forall (fun ring => r ring = 1 # 10 ∧ y ring = 1 # 10 ∧ vy ring = 0)
         (rings (Simulator_init N F dt0)).
Proof.
  rewrite Simulator_init_rings. apply Forall_app. split.
  - apply Forall_replicate. repeat split.
  - apply Forall_singleton. repeat split.
Qed.

(** X7.  In a run of a constructed chain no ring is ever below the floor:
    for every [N], for [F] and [dt] of moderate size and up to a million
    ticks [m], the [m] calls of [update] on [Simulator(N, F, axis, dt)] all
    return, the chain still has its [max(N, 1)] rings and its pairs, and
    every ring has the radius [0.1] and [y - r >= 0]. *)
Theorem ticks_constructed_floor (N : Z) (F dt0 : Q) (m : nat) :
  moderate F → moderate dt0 → (Z.of_nat m <= 1000000)%Z →
  ∃ s', ticks m (Simulator_init N F dt0) = Some s' ∧
        length (rings s') = Z.to_nat (Z.max N 1) ∧
        pairs s' = pairs (Simulator_init N F dt0) ∧
        Forall (fun ring => r ring = 1 # 10 ∧ 0 <= y ring - r ring)
               (rings s').
Proof.
  intros _ _ _.
  pose proof (Simulator_init_in_range N F dt0) as Hr.
  pose proof (Simulator_init_radius N F dt0) as H0.
  destruct (ticks_floor m (Simulator_init N F dt0) Hr) as (s' & E & Hf).
  { eapply Forall_impl; [exact H0 |]. intros ring (-> & _). discriminate. }
  { eapply Forall_impl; [exact H0 |].
    intros ring (Hrr & Hy & _). unfold on_or_above_floor.
    rewrite Hrr, Hy. discriminate. }
  destruct (ticks_shape_step m (Simulator_init N F dt0) Hr)
    as (s2 & E2 & Sh & P & _).
  rewrite E in E2. injection E2 as <-.
  exists s'. split; [exact E |].
  split.
  { rewrite (shape_length _ _ Sh), Simulator_init_rings.
    rewrite length_app, length_replicate. simpl. lia. }
  split; [exact P |].
  assert (Forall (fun ring => r ring = 1 # 10) (rings s')) as Hrad.
  { apply shape_radius. rewrite Sh. apply shape_radius.
    eapply Forall_impl; [exact H0 |]. intros ring (Hrr & _). exact Hrr. }
  apply Forall_and. split; assumption.
Qed.

Lemma ticks_constructed_floor_witness :
  ∃ s', ticks 250 (Simulator_init 10 10 (1 # 100)) = Some s' ∧
        length (rings s') = Z.to_nat (Z.max 10 1) ∧
        pairs s' = pairs (Simulator_init 10 10 (1 # 100)) ∧
        Forall (fun ring => r ring = 1 # 10 ∧ 0 <= y ring - r ring)
               (rings s').
Proof.
  apply (ticks_constructed_floor 10 10 (1 # 100) 250).
  - unfold moderate. vm_compute. discriminate.
  - unfold moderate. vm_compute. discriminate.
  - lia.
Defined.

Lemma Qsquare_nonneg (a : Q) : 0 <= a * a.
Proof. nra. Qed.

(** A ring lying on the floor without velocity, whose net acceleration is
    not upwards, is left where it is by [move], for any time step. *)
Lemma move_rest (ring : Ring) (dt0 : Q) :
  y ring = r ring → vy ring = 0 →
  match role ring with Passive => True | Active a => a <= 1 end →
  move ring dt0 = ring.
Proof.
  destruct ring as [y0 v0 r0 k]. simpl. intros -> -> Hk.
  assert (dt0 ^ 2 == dt0 * dt0) as Hsq by ring.
  pose proof (Qsquare_nonneg dt0) as Hnn.
  unfold move.
  assert (y (_move (mkRing r0 0 r0 k) dt0)
          - r (_move (mkRing r0 0 r0 k) dt0) <= 0) as Hle.
  { unfold _move, g. destruct k as [| a]; cbn [role y vy r]; rewrite Hsq.
    - qlra.
    - assert (0 <= (1 - a) * (dt0 * dt0)) as Hp
        by (apply Qmult_le_0_compat; lra).
      unfold Qdiv. cbn [Qinv Qnum Qden]. nra. }
  apply Qle_bool_iff in Hle. rewrite Hle.
  rewrite _move_r, _move_role. reflexivity.
Qed.

Lemma fmap_fixed {A} (f : A → A) (l : list A) :
  Forall (fun x => f x = x) l → f <$> l = l.
Proof.
  induction 1 as [| x l Hx _ IH]; [reflexivity |].
  rewrite fmap_cons, Hx, IH. reflexivity.
Qed.

(** X8.  A driving force that does not exceed gravity never lifts the chain:
    for [F <= 1], [F] and [dt] of moderate size and every [N], every tick
    returns the constructed chain unchanged, all rings lying on the floor at
    [y = r] with [vy = 0]. *)
Theorem ticks_at_rest (N : Z) (F dt0 : Q) (m : nat) :
  F <= 1 → moderate F → moderate dt0 →
  update (Simulator_init N F dt0) = Some (Simulator_init N F dt0) ∧
  ticks m (Simulator_init N F dt0) = Some (Simulator_init N F dt0).
Proof.
  intros HF _ _.
  assert (update (Simulator_init N F dt0) = Some (Simulator_init N F dt0))
    as Hupd.
  { assert (update_moves (Simulator_init N F dt0)
            = rings (Simulator_init N F dt0)) as Hmoves.
    { unfold update_moves. apply fmap_fixed.
      rewrite Simulator_init_rings. apply Forall_app. split.
      - apply Forall_replicate. apply move_rest; [reflexivity .. | exact I].
      - apply Forall_singleton. apply move_rest; [reflexivity .. | exact HF]. }
    unfold update. rewrite Hmoves.
    rewrite update_pairs_all_skip.
    - reflexivity.
    - apply Simulator_init_in_range.
    - unfold every_pair. apply Forall_forall. intros p _ a b Ha Hb.
      pose proof (Simulator_init_radius N F dt0) as H0.
      destruct (Forall_lookup_1 _ _ _ _ H0 Ha) as (Hra & Hya & _).
      destruct (Forall_lookup_1 _ _ _ _ H0 Hb) as (Hrb & Hyb & _).
      unfold overlapping. rewrite Hra, Hya, Hrb, Hyb. discriminate. }
  split; [exact Hupd |].
  induction m as [| m IH]; [reflexivity |].
  cbn [ticks]. rewrite Hupd. exact IH.
Qed.

Lemma ticks_at_rest_witness :
  update (Simulator_init 10 (1 # 2) (1 # 100))
  = Some (Simulator_init 10 (1 # 2) (1 # 100)) ∧
  ticks 5 (Simulator_init 10 (1 # 2) (1 # 100))
  = Some (Simulator_init 10 (1 # 2) (1 # 100)).
Proof.
  apply (ticks_at_rest 10 (1 # 2) (1 # 100) 5).
  - discriminate.
  - unfold moderate. vm_compute. discriminate.
  - unfold moderate. vm_compute. discriminate.
Defined.

(** *** What the order of the pairs does *)

(** X11.  A tick does not leave every pair within reach.  In the first tick
    of [Simulator(3, 10, axis, dt=1)] the pair [(1, 2)] is processed first
    and [collide] puts rings [1] and [2] at [2.25] and [2.45]; the pair
    [(0, 1)] is processed next and [collide] pulls ring [1] down to [1.275]
    (ring [0] up to [1.075]); the tick returns with rings [1] and [2]
    [1.175] apart, more than [r_1 + r_2 = 0.2]. *)
Theorem update_leaves_pair_apart :
  let s := Simulator_init 3 10 1 in
  ∃ rs1 rs2 b1 c1 a2 b2 c2,
    pairs s = [(1, 2); (0, 1)]%nat ∧
    update_pair (update_moves s) (1, 2)%nat = Some rs1 ∧
    rs1 !! 1%nat = Some b1 ∧ rs1 !! 2%nat = Some c1 ∧
    y b1 == 9 # 4 ∧ y c1 == 49 # 20 ∧
    update_pair rs1 (0, 1)%nat = Some rs2 ∧
    update s = Some {| rings := rs2; pairs := pairs s; dt := dt s |} ∧
    rs2 !! 0%nat = Some a2 ∧ rs2 !! 1%nat = Some b2 ∧ rs2 !! 2%nat = Some c2 ∧
    y a2 == 43 # 40 ∧ y b2 == 51 # 40 ∧ y c2 == 49 # 20 ∧
    apart b2 c2.
Proof.
  intros s.
  destruct (update_pair (update_moves s) (1, 2)%nat) as [rs1 |] eqn:E1;
    [| vm_compute in E1; discriminate E1].
  destruct (update_pair rs1 (0, 1)%nat) as [rs2 |] eqn:E2;
    [| vm_compute in E1; injection E1 as <-;
       vm_compute in E2; discriminate E2].
  vm_compute in E1. injection E1 as <-.
  vm_compute in E2. injection E2 as <-.
  eexists _, _, _, _, _, _, _.
  repeat (split; [reflexivity |]). reflexivity.
Qed.
(** X12.  The order of the pairs is observable: after the moves of the first tick
    of [Simulator(3, 10, axis, dt=1)], the pairs in the order of the code,
    [(1,2), (0,1)], lift ring [0] off the floor, and the same pairs in the
    opposite order leave it on the floor with [vy = 0]. *)
Theorem update_pairs_order_matters :
  let s := Simulator_init 3 10 1 in
  ∃ rs1 rs2 a1 a2,
    update_pairs (pairs s) (update_moves s) = Some rs1 ∧
    update_pairs (reverse (pairs s)) (update_moves s) = Some rs2 ∧
    rs1 !! 0%nat = Some a1 ∧ rs2 !! 0%nat = Some a2 ∧
    r a1 < y a1 ∧ 0 < vy a1 ∧ y a2 == r a2 ∧ vy a2 == 0.
Proof.
  intros s.
  destruct (update_pairs (pairs s) (update_moves s)) as [rs1 |] eqn:E1;
    [| vm_compute in E1; discriminate E1].
  destruct (update_pairs (reverse (pairs s)) (update_moves s))
    as [rs2 |] eqn:E2; [| vm_compute in E2; discriminate E2].
  vm_compute in E1, E2. injection E1 as <-. injection E2 as <-.
  eexists _, _, _, _.
  split; [reflexivity |]. split; [reflexivity |].
  split; [reflexivity |]. split; [reflexivity |].
  repeat split.
Qed.
